(** * The snake game of [snake.py]: the game loop and its state

    A shallow embedding of [init_game] and of the body of the [while] loop of
    [run_game].  Cells and directions are pairs of integers, as in the
    source; the snake is a list of cells, head first.  The drawing calls
    ([screen.fill], [pygame.draw.rect], [draw_score_and_time],
    [pygame.display.flip], [clock.tick]) do not touch the game variables and
    are left out; of [show_game_over] the placement of the panel is kept.
    The two outside sources of data are explicit:
    - the events that [pygame.event.get()] returns in one iteration are an
      argument of the loop body;
    - [random.randint] is a function on an explicit generator state, and
      [time.time()] is an argument of [init_game]. *)

From stdpp Require Import base decidable option list numbers.

Local Open Scope Z_scope.

(** ** Constants *)

Definition WIDTH : Z := 600.
Definition HEIGHT : Z := 400.
Definition GRID_SIZE : Z := 20.

(** A cell, and a direction, is a Python pair of ints. *)
Definition cell : Type := Z * Z.

(** ** Events *)

Inductive key : Set := K_UP | K_DOWN | K_LEFT | K_RIGHT | K_OTHER.

Inductive event : Set :=
| QUIT
| KEYDOWN (k : key)
| OTHER_EVENT.

#[global] Instance key_eq_dec : EqDecision key.
Proof. solve_decision. Defined.

(** The chain [if ... elif ... elif ... elif ...] under
    [event.type == pygame.KEYDOWN]. *)
Definition on_keydown (k : key) (snake_dir : cell) : cell :=
  if bool_decide (k = K_UP) && bool_decide (snake_dir ≠ (0, GRID_SIZE))
  then (0, - GRID_SIZE)
  else if bool_decide (k = K_DOWN) && bool_decide (snake_dir ≠ (0, - GRID_SIZE))
  then (0, GRID_SIZE)
  else if bool_decide (k = K_LEFT) && bool_decide (snake_dir ≠ (GRID_SIZE, 0))
  then (- GRID_SIZE, 0)
  else if bool_decide (k = K_RIGHT) && bool_decide (snake_dir ≠ (- GRID_SIZE, 0))
  then (GRID_SIZE, 0)
  else snake_dir.

(** One turn of [for event in pygame.event.get()], on the two variables the
    loop assigns: [running] and [snake_dir]. *)
Definition handle_event (st : bool * cell) (ev : event) : bool * cell :=
  match ev with
  | QUIT => (false, st.2)
  | KEYDOWN k => (st.1, on_keydown k st.2)
  | OTHER_EVENT => st
  end.

Definition handle_events (evs : list event) (st : bool * cell) : bool * cell :=
  foldl handle_event st evs.

(** The direction a key asks for, and the reverse of a direction. *)
Definition requested (k : key) : option cell :=
  match k with
  | K_UP => Some (0, - GRID_SIZE)
  | K_DOWN => Some (0, GRID_SIZE)
  | K_LEFT => Some (- GRID_SIZE, 0)
  | K_RIGHT => Some (GRID_SIZE, 0)
  | K_OTHER => None
  end.

Definition opposite (d : cell) : cell := (- d.1, - d.2).

(** ** Geometry *)

(** [new_head[0] < 0 or new_head[0] >= WIDTH or new_head[1] < 0 or
    new_head[1] >= HEIGHT] *)
Definition out_of_bounds (c : cell) : bool :=
  bool_decide (c.1 < 0) || bool_decide (c.1 >= WIDTH)
  || bool_decide (c.2 < 0) || bool_decide (c.2 >= HEIGHT).

(** The whole test of [if (new_head in snake or ...)]. *)
Definition collides (new_head : cell) (snake : list cell) : bool :=
  bool_decide (new_head ∈ snake) || out_of_bounds new_head.

(** [snake.pop()]: drops the last element, raises on the empty list. *)
Definition pop {A} (l : list A) : option (list A) :=
  match l with
  | [] => None
  | _ => Some (removelast l)
  end.

(** A cell of the board that lies on the grid. *)
Definition on_board (c : cell) : Prop :=
  0 <= c.1 < WIDTH ∧ 0 <= c.2 < HEIGHT.

Definition grid_aligned (c : cell) : Prop :=
  c.1 `mod` GRID_SIZE = 0 ∧ c.2 `mod` GRID_SIZE = 0.

(** Every cell but the first lies [d] to the left of the one before it, on
    the same row. *)
Fixpoint spaced_left (d : Z) (l : list cell) : Prop :=
  match l with
  | a :: (b :: _) as rest => b = (a.1 - d, a.2) ∧ spaced_left d rest
  | _ => True
  end.

(** ** The random source

    [random.randint] on a generator state of type [rng]: [randint a b g] is
    the integer drawn and the next state. *)
Class RandomSource (rng : Type) := randint : Z → Z → rng → Z * rng.
#[global] Hint Mode RandomSource ! : typeclass_instances.

(** ** The game *)

Section Game.
(** The generator state of [random] and the values of [time.time()]. *)
Context {rng time : Type} `{!RandomSource rng}.

(** The game variables of [run_game], and the generator. *)
Record session : Type := Session {
  snake : list cell;
  snake_dir : cell;
  food : cell;
  score : Z;
  start_time : time;
  running : bool;
  gen : rng
}.

(** [(random.randint(0, (WIDTH // GRID_SIZE) - 1) * GRID_SIZE,
      random.randint(0, (HEIGHT // GRID_SIZE) - 1) * GRID_SIZE)] *)
Definition random_food (g : rng) : cell * rng :=
  let '(x, g1) := randint 0 (WIDTH `div` GRID_SIZE - 1) g in
  let '(y, g2) := randint 0 (HEIGHT `div` GRID_SIZE - 1) g1 in
  ((x * GRID_SIZE, y * GRID_SIZE), g2).

(** [init_game]: returns [snake, snake_dir, food, score, start_time]. *)
Definition init_game (now : time) (g : rng)
  : (list cell * cell * cell * Z * time) * rng :=
  let snake := [(100, 100); (90, 100); (80, 100)] in
  let snake_dir := (GRID_SIZE, 0) in
  let '(food, g') := random_food g in
  let score := 0 in
  let start_time := now in
  ((snake, snake_dir, food, score, start_time), g').

(** The state at the first test of [while running]. *)
Definition start (now : time) (g : rng) : session :=
  let '((snake, snake_dir, food, score, start_time), g') := init_game now g in
  Session snake snake_dir food score start_time true g'.

(** [new_head] as the loop body computes it, after the events of the
    iteration; [snake[0]] raises on an empty list. *)
Definition new_head (evs : list event) (s : session) : option cell :=
  let dir := (handle_events evs (running s, snake_dir s)).2 in
  hd ← snake s !! 0%nat;
  Some (hd.1 + dir.1, hd.2 + dir.2).

(** One iteration of the [while] loop. *)
Definition tick (evs : list event) (s : session) : option session :=
  let '(running1, dir) := handle_events evs (running s, snake_dir s) in
  hd ← snake s !! 0%nat;
  let new_head := (hd.1 + dir.1, hd.2 + dir.2) in
  let running2 := if collides new_head (snake s) then false else running1 in
  let snake1 := new_head :: snake s in
  if bool_decide (new_head = food s) then
    let '(food', g') := random_food (gen s) in
    Some (Session snake1 dir food' (score s + 1) (start_time s) running2 g')
  else
    snake2 ← pop snake1;
    Some (Session snake2 dir (food s) (score s) (start_time s) running2 (gen s)).

(** The state an iteration that does not raise ends in, as a function of
    [new_head]: [tick] in closed form, for the proofs ([tick_after_tick]). *)
Definition after_tick (evs : list event) (s : session) (nh : cell)
  : session :=
  let st := handle_events evs (running s, snake_dir s) in
  let alive := if collides nh (snake s) then false else st.1 in
  if bool_decide (nh = food s) then
    Session (nh :: snake s) st.2 (random_food (gen s)).1 (score s + 1)
            (start_time s) alive (random_food (gen s)).2
  else
    Session (removelast (nh :: snake s)) st.2 (food s) (score s)
            (start_time s) alive (gen s).

(** The loop, on the events of the successive iterations: it stops when
    [running] is false, or here when the script of events ends. *)
Fixpoint game_loop (frames : list (list event)) (s : session) : option session :=
  match frames with
  | [] => Some s
  | evs :: frames' =>
      if running s then s' ← tick evs s; game_loop frames' s' else Some s
  end.

(** The states the loop can be in at the test of [while running]. *)
Inductive reachable : session → Prop :=
| reach_start now g : reachable (start now g)
| reach_tick s evs s' :
    reachable s → running s = true → tick evs s = Some s' → reachable s'.

End Game.

Arguments session : clear implicits.

(** ** A scripted generator and some plays

    A generator whose state is the list of the draws to come, reduced into
    the range asked for; it stands for [random] in the concrete plays below. *)
#[global] Instance stub_randint : RandomSource (list Z) := λ a b g,
  match g with
  | [] => (a, [])
  | x :: g' => (a + x `mod` (b - a + 1), g')
  end.

(** The game played from [init_game] on a script of events, with the draws
    [draws] to come. *)
Definition play (draws : list Z) (frames : list (list event))
  : option (session (list Z) unit) :=
  game_loop frames (start () draws).

(** Three iterations: straight on (eating the food at (120, 100)), down,
    left.  The head is then at (100, 120), just below the tail. *)
Definition coil : list (list event) :=
  [ []; [KEYDOWN K_DOWN]; [KEYDOWN K_LEFT] ].

(** The state after [coil] when the second food is drawn at (180, 180) ... *)
Definition coiled : session (list Z) unit :=
  Session [(100, 120); (120, 120); (120, 100); (100, 100)]
          (- 20, 0) (180, 180) 1 () true [7; 8].

(** ... and when it is drawn at (100, 100), a cell of the snake. *)
Definition coiled_on_food : session (list Z) unit :=
  Session [(100, 120); (120, 120); (120, 100); (100, 100)]
          (- 20, 0) (100, 100) 1 () true [7; 8].

(** A snake about to leave the board on the right, with food behind it. *)
Definition at_right_wall : session (list Z) unit :=
  Session [(580, 100); (560, 100); (540, 100)]
          (20, 0) (300, 200) 0 () true [3; 4].

(** ** Directions, the grid and the game-over panel *)

#[global] Instance event_eq_dec : EqDecision event.
Proof. solve_decision. Defined.

(** The four values that the [KEYDOWN] branches assign to [snake_dir]. *)
Definition directions : list cell :=
  [(0, - GRID_SIZE); (0, GRID_SIZE); (- GRID_SIZE, 0); (GRID_SIZE, 0)].

(** The cells of the board that lie on the grid: the values the two
    [randint(...) * GRID_SIZE] of the food can take. *)
Definition board_cells : list cell :=
  x ← seqZ 0 (WIDTH `div` GRID_SIZE);
  y ← seqZ 0 (HEIGHT `div` GRID_SIZE);
  [(x * GRID_SIZE, y * GRID_SIZE)].

(** A cell on the grid, or the one cell of the initial snake that is not. *)
Definition on_grid_or_initial (c : cell) : Prop :=
  grid_aligned c ∨ c = (90, 100).

(** The size of the surface built by [show_game_over] (and by
    [draw_score_and_time]) for two rendered texts, each given by its
    [(get_width(), get_height())]: [(max(w1, w2), h1 + h2)]. *)
Definition panel_size (top bottom : Z * Z) : Z * Z :=
  (top.1 `max` bottom.1, top.2 + bottom.2).

(** Where [show_game_over] blits that surface on the screen:
    [(WIDTH // 2 - get_width() // 2, HEIGHT // 2 - get_height() // 2)]. *)
Definition game_over_position (game_over_text score_text : Z * Z) : cell :=
  let game_over_surface := panel_size game_over_text score_text in
  (WIDTH `div` 2 - game_over_surface.1 `div` 2,
   HEIGHT `div` 2 - game_over_surface.2 `div` 2).

(** The state after the first iteration of a game with no key pressed and
    the food elsewhere. *)
Definition moved_once : session (list Z) unit :=
  Session [(120, 100); (100, 100); (90, 100)]
          (20, 0) (180, 180) 0 () true [].

(** The state after going up from [coiled]: the head has run into the
    tail and the loop has stopped. *)
Definition bitten : session (list Z) unit :=
  Session [(100, 100); (100, 120); (120, 120); (120, 100)]
          (0, - 20) (180, 180) 1 () false [7; 8].

(** * Properties *)

(** ** The scripted plays *)

Lemma stub_randint_range a b (g : list Z) :
  a <= b → a <= (randint a b g).1 <= b.
Proof.
  intros Hab. destruct g as [|x g]; simpl; [lia|].
  pose proof (Z.mod_pos_bound x (b - a + 1)). lia.
Qed.

Example play_coil : play [6; 5; 9; 9; 7; 8] coil = Some coiled.
Proof. reflexivity. Qed.

Example play_coil_on_food : play [6; 5; 5; 5; 7; 8] coil = Some coiled_on_food.
Proof. reflexivity. Qed.

(** The first iteration with no key pressed and the food elsewhere: the
    head moves by [GRID_SIZE], the tail cell (80, 100) goes. *)
Example first_tick :
  snake <$> play [9; 9] [ [] ] = Some [(120, 100); (100, 100); (90, 100)].
Proof. reflexivity. Qed.

(** A reversal asked for in the first iteration is ignored, and a [QUIT]
    stops the loop after the iteration it arrives in, which still moves the
    snake. *)
Example first_tick_reversal :
  snake <$> play [9; 9] [ [KEYDOWN K_LEFT] ]
  = Some [(120, 100); (100, 100); (90, 100)].
Proof. reflexivity. Qed.

Example quit_still_moves :
  (λ s, (running s, snake s)) <$> play [9; 9] [ [QUIT]; []; [] ]
  = Some (false, [(120, 100); (100, 100); (90, 100)]).
Proof. reflexivity. Qed.

(** ** Events *)

Lemma on_keydown_requested k d r :
  requested k = Some r →
  on_keydown k d = if bool_decide (d = opposite r) then d else r.
Proof.
  destruct k; intros [= <-]; unfold on_keydown, opposite, GRID_SIZE; simpl;
    rewrite ?Z.opp_involutive, ?Z.opp_0;
    repeat case_bool_decide; congruence.
Qed.

Lemma opposite_involutive d : opposite (opposite d) = d.
Proof. destruct d as [x y]. unfold opposite. simpl. f_equal; lia. Qed.

Lemma opposite_swap d r : r = opposite d ↔ d = opposite r.
Proof.
  split; intros ->; by rewrite opposite_involutive.
Qed.

(** ** Lists *)

Lemma pop_cons {A} (x : A) l : pop (x :: l) = Some (removelast (x :: l)).
Proof. reflexivity. Qed.

Lemma removelast_cons_length {A} (x : A) l :
  length (removelast (x :: l)) = length l.
Proof.
  revert x. induction l as [|y l IH]; intros x; [done|].
  change (removelast (x :: y :: l)) with (x :: removelast (y :: l)).
  cbn [length]. by rewrite IH.
Qed.

Lemma removelast_cons_ne {A} (x : A) l :
  l ≠ [] → removelast (x :: l) = x :: removelast l.
Proof. by destruct l. Qed.

Lemma elem_of_removelast {A} (x : A) l : x ∈ removelast l → x ∈ l.
Proof.
  induction l as [|y l IH]; [done|].
  destruct l as [|z l].
  - by intros ?%elem_of_nil.
  - change (x ∈ y :: removelast (z :: l) → x ∈ y :: z :: l).
    rewrite !(elem_of_cons _ x y). intros [->|H]; [by left|right; by apply IH].
Qed.

Lemma NoDup_removelast {A} (l : list A) : NoDup l → NoDup (removelast l).
Proof.
  induction 1 as [|x l Hx Hl IH]; [constructor|].
  destruct l as [|y l]; [constructor|].
  change (removelast (x :: y :: l)) with (x :: removelast (y :: l)).
  constructor; [|done].
  intros Hin. by apply Hx, elem_of_removelast.
Qed.

(** ** The loop body *)

Section GameProperties.
Context {rng time : Type} `{!RandomSource rng}.

(** [random.randint(a, b)] returns an integer [N] with [a <= N <= b]. *)
Hypothesis randint_range :
  ∀ a b (g : rng), a <= b → a <= (randint a b g).1 <= b.

Implicit Types (s : session rng time) (evs : list event) (nh : cell).
Implicit Types (now : time) (g : rng).


Lemma new_head_Some evs s nh :
  new_head evs s = Some nh ↔
  ∃ hd tl, snake s = hd :: tl ∧
    nh = (hd.1 + (handle_events evs (running s, snake_dir s)).2.1,
          hd.2 + (handle_events evs (running s, snake_dir s)).2.2).
Proof.
  unfold new_head. destruct (snake s) as [|hd tl]; simpl.
  - split; [done|]. by intros (? & ? & ? & _).
  - split.
    + intros [= <-]. by exists hd, tl.
    + intros (? & ? & [= <- <-] & ->). done.
Qed.

Lemma tick_after_tick evs s nh :
  new_head evs s = Some nh → tick evs s = Some (after_tick evs s nh).
Proof.
  intros (hd & tl & Hs & ->)%new_head_Some.
  unfold tick, after_tick.
  destruct (handle_events evs (running s, snake_dir s)) as [run1 dir].
  rewrite Hs. simpl.
  destruct (bool_decide _); [|done].
  by destruct (random_food (gen s)).
Qed.

(** The loop body raises only on an empty snake. *)
Lemma tick_is_Some evs s : snake s ≠ [] → is_Some (tick evs s).
Proof.
  intros Hne. destruct (snake s) as [|hd tl] eqn:Hs; [done|].
  assert (is_Some (new_head evs s)) as [nh Hnh].
  { unfold new_head. rewrite Hs. by eexists. }
  rewrite (tick_after_tick _ _ _ Hnh). by eexists.
Qed.

Lemma tick_new_head evs s s' :
  tick evs s = Some s' → ∃ nh, new_head evs s = Some nh ∧ s' = after_tick evs s nh.
Proof.
  intros Ht. destruct (new_head evs s) as [nh|] eqn:Hnh.
  - exists nh. rewrite (tick_after_tick _ _ _ Hnh) in Ht. by injection Ht as <-.
  - exfalso. unfold tick, new_head in *.
    destruct (handle_events evs (running s, snake_dir s)) as [run1 dir].
    by destruct (snake s).
Qed.

Lemma snake_after_tick evs s nh :
  snake (after_tick evs s nh) =
    if bool_decide (nh = food s) then nh :: snake s
    else removelast (nh :: snake s).
Proof. unfold after_tick. by case_bool_decide. Qed.

Lemma running_after_tick evs s nh :
  running (after_tick evs s nh) =
    if collides nh (snake s) then false
    else (handle_events evs (running s, snake_dir s)).1.
Proof. unfold after_tick. by case_bool_decide. Qed.

Lemma out_of_bounds_true nh :
  out_of_bounds nh = true ↔
  nh.1 < 0 ∨ nh.1 >= WIDTH ∨ nh.2 < 0 ∨ nh.2 >= HEIGHT.
Proof.
  unfold out_of_bounds.
  rewrite !orb_true_iff, !bool_decide_eq_true. tauto.
Qed.

Lemma collides_true nh l :
  collides nh l = true ↔ nh ∈ l ∨ out_of_bounds nh = true.
Proof.
  unfold collides. by rewrite orb_true_iff, bool_decide_eq_true.
Qed.

(** ** Food *)

Lemma random_food_on_grid g :
  on_board (random_food g).1 ∧ grid_aligned (random_food g).1.
Proof.
  unfold random_food.
  pose proof (randint_range 0 (WIDTH `div` GRID_SIZE - 1) g) as Hx.
  destruct (randint 0 (WIDTH `div` GRID_SIZE - 1) g) as [x g1].
  pose proof (randint_range 0 (HEIGHT `div` GRID_SIZE - 1) g1) as Hy.
  destruct (randint 0 (HEIGHT `div` GRID_SIZE - 1) g1) as [y g2].
  change (WIDTH `div` GRID_SIZE - 1) with 29 in Hx.
  change (HEIGHT `div` GRID_SIZE - 1) with 19 in Hy.
  unfold on_board, grid_aligned, WIDTH, HEIGHT, GRID_SIZE. simpl in *.
  rewrite !Z.mod_mul by done. lia.
Qed.

Lemma food_start now g : food (start now g) = (random_food g).1.
Proof.
  unfold start, init_game. by destruct (random_food g).
Qed.

Lemma snake_start now g :
  snake (start now g) = [(100, 100); (90, 100); (80, 100)].
Proof.
  unfold start, init_game. by destruct (random_food g).
Qed.

Lemma running_start now g : running (start now g) = true.
Proof.
  unfold start, init_game. by destruct (random_food g).
Qed.

Lemma snake_dir_start now g : snake_dir (start now g) = (GRID_SIZE, 0).
Proof.
  unfold start, init_game. by destruct (random_food g).
Qed.

Lemma score_start now g : score (start now g) = 0.
Proof.
  unfold start, init_game. by destruct (random_food g).
Qed.

(** ** Reachable states *)

Lemma length_after_tick evs s nh :
  (length (snake s) <= length (snake (after_tick evs s nh)))%nat.
Proof.
  rewrite snake_after_tick. case_bool_decide.
  - simpl. lia.
  - by rewrite removelast_cons_length.
Qed.

(** The snake never gets shorter than it is at the start. *)
Lemma reachable_length s : reachable s → (3 <= length (snake s))%nat.
Proof.
  induction 1 as [now g|s evs s' _ IH _ Ht].
  - by rewrite snake_start.
  - apply tick_new_head in Ht as (nh & _ & ->).
    pose proof (length_after_tick evs s nh). lia.
Qed.

(** So the loop body never raises in a state the game can be in. *)
Lemma reachable_tick_is_Some evs s : reachable s → is_Some (tick evs s).
Proof.
  intros Hr%reachable_length. apply tick_is_Some.
  intros Hs. rewrite Hs in Hr. simpl in Hr. lia.
Qed.

Lemma game_loop_reachable frames s s' :
  reachable s → game_loop frames s = Some s' → reachable s'.
Proof.
  revert s. induction frames as [|evs frames IH]; intros s Hr; simpl.
  - by intros [= <-].
  - destruct (running s) eqn:Hrun; [|by intros [= <-]].
    destruct (tick evs s) as [s1|] eqn:Ht; [|done]. simpl.
    apply IH. by eapply reach_tick.
Qed.

(** An iteration that leaves [running] true keeps the snake free of
    repeated cells. *)
Lemma tick_alive_NoDup evs s s' :
  NoDup (snake s) → tick evs s = Some s' → running s' = true →
  NoDup (snake s').
Proof.
  intros Hnd (nh & _ & ->)%tick_new_head.
  rewrite running_after_tick, snake_after_tick.
  destruct (collides nh (snake s)) eqn:Hc; [done|]. intros _.
  assert (nh ∉ snake s) as Hnh.
  { intros Hin. apply not_true_iff_false in Hc. apply Hc, collides_true. by left. }
  assert (NoDup (nh :: snake s)) by by constructor.
  case_bool_decide; [done|]. by apply NoDup_removelast.
Qed.

Lemma start_NoDup now g : NoDup (snake (start now g)).
Proof.
  rewrite snake_start. apply (bool_decide_unpack _). by vm_compute.
Qed.

(** * The claims *)

(** C1 (as amended).  In every iteration whose new head is already a cell
    of the snake, [running] becomes false; the snake is updated as in any
    other iteration: the new head is put in front, and the tail is removed
    unless the new head is the food. *)
Theorem self_collision_ends_session evs s nh :
  new_head evs s = Some nh → nh ∈ snake s →
  ∃ s', tick evs s = Some s' ∧ running s' = false ∧
    snake s' = if bool_decide (nh = food s) then nh :: snake s
               else nh :: removelast (snake s).
Proof.
  intros Hnh Hin. exists (after_tick evs s nh).
  split; [by apply tick_after_tick|].
  rewrite running_after_tick, snake_after_tick.
  assert (collides nh (snake s) = true) as -> by (apply collides_true; by left).
  split; [done|]. case_bool_decide; [done|].
  apply removelast_cons_ne. intros Hs. rewrite Hs in Hin. by apply elem_of_nil in Hin.
Qed.

(** C2.  What [init_game] returns: a snake of three cells at (100, 100),
    (90, 100), (80, 100), the direction to the right and the score 0.  The
    cells are 10 apart, not [GRID_SIZE] = 20. *)
Theorem init_game_snake_spacing now g :
  snake (start now g) = [(100, 100); (90, 100); (80, 100)] ∧
  length (snake (start now g)) = 3%nat ∧
  snake_dir (start now g) = (GRID_SIZE, 0) ∧
  score (start now g) = 0 ∧
  spaced_left 10 (snake (start now g)) ∧
  ¬ spaced_left GRID_SIZE (snake (start now g)).
Proof.
  rewrite snake_start, snake_dir_start, score_start.
  repeat split; try done.
  intros [Heq _]. discriminate Heq.
Qed.

(** C3.  In every iteration whose new head is not the food, the snake is as
    long after the iteration as before. *)
Theorem tick_without_food_keeps_length evs s nh :
  new_head evs s = Some nh → nh ≠ food s →
  ∃ s', tick evs s = Some s' ∧ length (snake s') = length (snake s).
Proof.
  intros Hnh Hne. exists (after_tick evs s nh).
  split; [by apply tick_after_tick|].
  rewrite snake_after_tick, bool_decide_false by done.
  apply removelast_cons_length.
Qed.

(** C4.  In every iteration whose new head is the food, the snake gets one
    cell longer and the score one higher. *)
Theorem tick_with_food_grows evs s nh :
  new_head evs s = Some nh → nh = food s →
  ∃ s', tick evs s = Some s' ∧
    length (snake s') = S (length (snake s)) ∧ score s' = score s + 1.
Proof.
  intros Hnh Heq. exists (after_tick evs s nh).
  split; [by apply tick_after_tick|].
  rewrite snake_after_tick. unfold after_tick.
  by rewrite !bool_decide_true by done.
Qed.

(** C5.  In every iteration whose new head has x < 0, x >= 600, y < 0 or
    y >= 400, [running] becomes false. *)
Theorem wall_collision_ends_session evs s nh :
  new_head evs s = Some nh →
  nh.1 < 0 ∨ nh.1 >= 600 ∨ nh.2 < 0 ∨ nh.2 >= 400 →
  ∃ s', tick evs s = Some s' ∧ running s' = false.
Proof.
  intros Hnh Hout. exists (after_tick evs s nh).
  split; [by apply tick_after_tick|].
  rewrite running_after_tick.
  assert (collides nh (snake s) = true) as ->; [|done].
  apply collides_true. right. by apply out_of_bounds_true.
Qed.

(** C6.  A key that asks for the exact reverse of the current direction
    leaves the direction as it is; a key that asks for any other of the four
    directions sets the direction to the one asked for.  [running] is not
    touched. *)
Theorem reversal_rejected (alive : bool) (d : cell) (k : key) (r : cell) :
  requested k = Some r →
  handle_event (alive, d) (KEYDOWN k) =
    (alive, if bool_decide (r = opposite d) then d else r).
Proof.
  intros Hr. simpl. rewrite (on_keydown_requested k d r Hr).
  by rewrite (bool_decide_ext _ _ (opposite_swap d r)).
Qed.

(** C7.  Whatever the generator draws within the range asked for, the food
    placed by [init_game], and the food placed by an iteration in which the
    snake eats, lies in [0,600) x [0,400) with both coordinates multiples of
    20. *)
Theorem food_on_grid :
  (∀ now g,
     let f := food (start now g) in
     (0 <= f.1 < 600 ∧ 0 <= f.2 < 400) ∧ f.1 `mod` 20 = 0 ∧ f.2 `mod` 20 = 0) ∧
  (∀ evs s nh s',
     new_head evs s = Some nh → nh = food s → tick evs s = Some s' →
     let f := food s' in
     (0 <= f.1 < 600 ∧ 0 <= f.2 < 400) ∧ f.1 `mod` 20 = 0 ∧ f.2 `mod` 20 = 0).
Proof.
  split.
  - intros now g. simpl. rewrite food_start.
    destruct (random_food_on_grid g) as [Hb [Hx Hy]]. done.
  - intros evs s nh s' Hnh Heq Ht. simpl.
    rewrite (tick_after_tick _ _ _ Hnh) in Ht. injection Ht as <-.
    unfold after_tick. rewrite bool_decide_true by done. simpl.
    destruct (random_food_on_grid (gen s)) as [Hb [Hx Hy]]. done.
Qed.

(** C8.  In every state the game can be in with [running] true, no cell
    occurs twice in the snake: so it is at the start ([start_NoDup]), and
    every iteration that leaves [running] true keeps it so
    ([tick_alive_NoDup]). *)
Theorem alive_snake_NoDup s :
  reachable s → running s = true → NoDup (snake s).
Proof.
  induction 1 as [now g|s evs s' _ IH Hrun Ht]; intros Halive.
  - apply start_NoDup.
  - by eapply tick_alive_NoDup; [apply IH| |].
Qed.

(** C9.  After an iteration that ends the game because the new head is off
    the board, the first cell of the snake is that new head. *)
Theorem wall_collision_head_appended evs s nh :
  new_head evs s = Some nh →
  nh.1 < 0 ∨ nh.1 >= 600 ∨ nh.2 < 0 ∨ nh.2 >= 400 →
  ∃ s', tick evs s = Some s' ∧ running s' = false ∧
    snake s' !! 0%nat = Some nh.
Proof.
  intros Hnh Hout. exists (after_tick evs s nh).
  split; [by apply tick_after_tick|].
  rewrite running_after_tick, snake_after_tick.
  assert (collides nh (snake s) = true) as ->.
  { apply collides_true. right. by apply out_of_bounds_true. }
  split; [done|]. case_bool_decide; [done|].
  apply new_head_Some in Hnh as (hd & tl & -> & _). done.
Qed.

(** C10.  In every iteration whose new head is the food and also a cell of
    the snake, [running] becomes false, the score goes up by one, a new food
    is drawn from the generator, and the snake is the old one with the new
    head in front (no tail removed). *)
Theorem food_inside_snake_tick evs s nh :
  new_head evs s = Some nh → nh = food s → nh ∈ snake s →
  ∃ s', tick evs s = Some s' ∧ running s' = false ∧
    score s' = score s + 1 ∧
    (food s', gen s') = random_food (gen s) ∧
    snake s' = nh :: snake s.
Proof.
  intros Hnh Heq Hin. exists (after_tick evs s nh).
  split; [by apply tick_after_tick|].
  rewrite running_after_tick, snake_after_tick.
  assert (collides nh (snake s) = true) as -> by (apply collides_true; by left).
  unfold after_tick. rewrite !bool_decide_true by done. simpl.
  by destruct (random_food (gen s)).
Qed.

End GameProperties.

(** * The claims on the scripted plays *)

(** C1 as first stated fails: [coiled] is the state after three iterations
    of a game; going up from there the new head (100, 100) is the tail of
    the snake, the game ends, and the snake has changed all the same. *)
Lemma self_collision_snake_mutated :
  new_head [KEYDOWN K_UP] coiled = Some (100, 100) ∧
  (100, 100) ∈ snake coiled ∧
  ∃ s', tick [KEYDOWN K_UP] coiled = Some s' ∧
    running s' = false ∧
    snake s' = [(100, 100); (100, 120); (120, 120); (120, 100)] ∧
    snake s' ≠ snake coiled.
Proof.
  split; [reflexivity|]. split; [repeat constructor|].
  eexists. split; [reflexivity|]. simpl. repeat split. discriminate.
Qed.

Lemma self_collision_ends_session_witness :
  ∃ s', tick [KEYDOWN K_UP] coiled = Some s' ∧
    running s' = false ∧
    snake s' = [(100, 100); (100, 120); (120, 120); (120, 100)].
Proof.
  apply (self_collision_ends_session [KEYDOWN K_UP] coiled (100, 100)).
  - reflexivity.
  - repeat constructor.
Defined.

Lemma tick_without_food_keeps_length_witness :
  ∃ s', tick [] (start () [9; 9]) = Some s' ∧
    length (snake s') = 3%nat.
Proof.
  change 3%nat with (length (snake (start (time:=unit) () [9; 9]))).
  apply (tick_without_food_keeps_length [] (start () [9; 9]) (120, 100)).
  - reflexivity.
  - discriminate.
Defined.

Lemma tick_with_food_grows_witness :
  ∃ s', tick [] (start () [6; 5]) = Some s' ∧
    length (snake s') = 4%nat ∧ score s' = 1.
Proof.
  exact (tick_with_food_grows [] (start () [6; 5]) (120, 100) eq_refl eq_refl).
Defined.

Lemma wall_collision_ends_session_witness :
  ∃ s', tick [] at_right_wall = Some s' ∧ running s' = false.
Proof.
  apply (wall_collision_ends_session [] at_right_wall (600, 100)).
  - reflexivity.
  - right. left. simpl. lia.
Defined.

Lemma reversal_rejected_witness :
  handle_event (true, (20, 0)) (KEYDOWN K_LEFT) = (true, (20, 0)) ∧
  handle_event (true, (20, 0)) (KEYDOWN K_UP) = (true, (0, -20)).
Proof.
  split.
  - apply (reversal_rejected true (20, 0) K_LEFT (-20, 0)). reflexivity.
  - apply (reversal_rejected true (20, 0) K_UP (0, -20)). reflexivity.
Defined.

Lemma food_on_grid_witness :
  (let f := food (start () [36; 25]) in
   (0 <= f.1 < 600 ∧ 0 <= f.2 < 400) ∧ f.1 `mod` 20 = 0 ∧ f.2 `mod` 20 = 0) ∧
  (∀ s', tick [KEYDOWN K_UP] coiled_on_food = Some s' →
     let f := food s' in
     (0 <= f.1 < 600 ∧ 0 <= f.2 < 400) ∧ f.1 `mod` 20 = 0 ∧ f.2 `mod` 20 = 0).
Proof.
  destruct (food_on_grid (rng:=list Z) (time:=unit) stub_randint_range)
    as [Hstart Htick].
  split.
  - apply (Hstart () [36; 25]).
  - intros s'.
    apply (Htick [KEYDOWN K_UP] coiled_on_food (100, 100) s'); reflexivity.
Defined.

Lemma alive_snake_NoDup_witness :
  NoDup [(100, 120); (120, 120); (120, 100); (100, 100)].
Proof.
  apply (alive_snake_NoDup coiled).
  - apply (game_loop_reachable coil
             (start () [6; 5; 9; 9; 7; 8])).
    + apply reach_start.
    + reflexivity.
  - reflexivity.
Defined.

Lemma wall_collision_head_appended_witness :
  ∃ s', tick [] at_right_wall = Some s' ∧ running s' = false ∧
    snake s' !! 0%nat = Some (600, 100).
Proof.
  apply (wall_collision_head_appended [] at_right_wall (600, 100)).
  - reflexivity.
  - right. left. simpl. lia.
Defined.

Lemma food_inside_snake_tick_witness :
  ∃ s', tick [KEYDOWN K_UP] coiled_on_food = Some s' ∧
    running s' = false ∧
    score s' = 2 ∧
    (food s', gen s') = ((140, 160), []) ∧
    snake s' = [(100, 100); (100, 120); (120, 120); (120, 100); (100, 100)].
Proof.
  assert ((100, 100) ∈ snake coiled_on_food) as Hin by repeat constructor.
  exact (food_inside_snake_tick [KEYDOWN K_UP] coiled_on_food (100, 100)
           eq_refl eq_refl Hin).
Defined.

(** * Further properties of the loop *)

(** ** The events of one iteration *)

Example play_moved_once : play [9; 9] [ [] ] = Some moved_once.
Proof. reflexivity. Qed.

Lemma directions_spec (d : cell) :
  d ∈ directions ↔ d = (0, -20) ∨ d = (0, 20) ∨ d = (-20, 0) ∨ d = (20, 0).
Proof.
  unfold directions, GRID_SIZE. change (- (20)) with (-20).
  rewrite !elem_of_cons, elem_of_nil. tauto.
Qed.

Lemma direction_ne_opposite d : d ∈ directions → d ≠ opposite d.
Proof.
  intros Hd%directions_spec Heq. unfold opposite in Heq.
  destruct Hd as [-> | [-> | [-> | ->]]]; discriminate Heq.
Qed.

Lemma requested_directions k r : requested k = Some r → r ∈ directions.
Proof.
  destruct k; intros [= <-]; unfold directions;
    rewrite !elem_of_cons; auto.
Qed.

Lemma on_keydown_other d : on_keydown K_OTHER d = d.
Proof. reflexivity. Qed.

Lemma on_keydown_directions k d : d ∈ directions → on_keydown k d ∈ directions.
Proof.
  intros Hd. destruct (requested k) as [r|] eqn:Hr.
  - rewrite (on_keydown_requested k d r Hr).
    case_bool_decide; [done|]. by eapply requested_directions.
  - destruct k; try discriminate. by rewrite on_keydown_other.
Qed.

Lemma handle_events_cons e evs st :
  handle_events (e :: evs) st = handle_events evs (handle_event st e).
Proof. reflexivity. Qed.

Lemma handle_events_running evs a d :
  (handle_events evs (a, d)).1 = if bool_decide (QUIT ∈ evs) then false else a.
Proof.
  revert a d. induction evs as [|e evs IH]; intros a d.
  - rewrite bool_decide_false; [done|]. by intros ?%elem_of_nil.
  - rewrite handle_events_cons.
    destruct e as [|k|]; simpl handle_event; rewrite IH.
    + rewrite (bool_decide_true (QUIT ∈ QUIT :: evs)) by by left.
      by case_bool_decide.
    + apply (f_equal (λ b : bool, if b then false else a)).
      apply bool_decide_ext. rewrite elem_of_cons.
      split; [by right|]. by intros [?|?].
    + apply (f_equal (λ b : bool, if b then false else a)).
      apply bool_decide_ext. rewrite elem_of_cons.
      split; [by right|]. by intros [?|?].
Qed.

Lemma handle_events_directions evs a d :
  d ∈ directions → (handle_events evs (a, d)).2 ∈ directions.
Proof.
  revert a d. induction evs as [|e evs IH]; intros a d Hd; [done|].
  rewrite handle_events_cons.
  destruct e as [|k|]; simpl handle_event; apply IH; [done| |done].
  by apply on_keydown_directions.
Qed.

(** ** One iteration *)

Section LoopProperties.
Context {rng time : Type} `{!RandomSource rng}.

(** [random.randint(a, b)] returns an integer [N] with [a <= N <= b]. *)
Hypothesis randint_range :
  ∀ a b (g : rng), a <= b → a <= (randint a b g).1 <= b.

Implicit Types (s : session rng time) (evs : list event) (nh : cell).
Implicit Types (now : time) (g : rng) (frames : list (list event)).

Lemma snake_dir_after_tick evs s nh :
  snake_dir (after_tick evs s nh)
  = (handle_events evs (running s, snake_dir s)).2.
Proof. unfold after_tick. by case_bool_decide. Qed.

Lemma score_after_tick evs s nh :
  score (after_tick evs s nh)
  = if bool_decide (nh = food s) then score s + 1 else score s.
Proof. unfold after_tick. by case_bool_decide. Qed.

Lemma start_time_after_tick evs s nh :
  start_time (after_tick evs s nh) = start_time s.
Proof. unfold after_tick. by case_bool_decide. Qed.

Lemma food_after_tick evs s nh :
  (food (after_tick evs s nh), gen (after_tick evs s nh))
  = if bool_decide (nh = food s) then random_food (gen s)
    else (food s, gen s).
Proof.
  unfold after_tick. case_bool_decide; [|done].
  by destruct (random_food (gen s)).
Qed.

Lemma tick_direction evs s s' :
  snake_dir s ∈ directions → tick evs s = Some s' → snake_dir s' ∈ directions.
Proof.
  intros Hd (nh & _ & ->)%tick_new_head.
  rewrite snake_dir_after_tick. by apply handle_events_directions.
Qed.

Lemma start_direction now g : snake_dir (start now g) ∈ directions.
Proof. rewrite snake_dir_start. unfold directions. rewrite !elem_of_cons. auto. Qed.

(** After an iteration the second cell of the snake is where the head came
    from. *)
Lemma neck_after_tick evs s s' hd nk :
  tick evs s = Some s' →
  snake s' !! 0%nat = Some hd → snake s' !! 1%nat = Some nk →
  hd = (nk.1 + (snake_dir s').1, nk.2 + (snake_dir s').2).
Proof.
  intros (nh & Hnh & ->)%tick_new_head.
  apply new_head_Some in Hnh as (hd0 & tl & Hs & Hnh).
  rewrite snake_after_tick, snake_dir_after_tick, Hs.
  case_bool_decide.
  - simpl. intros [= <-] [= <-]. done.
  - destruct tl as [|c tl]; [done|].
    change (removelast (nh :: hd0 :: c :: tl))
      with (nh :: hd0 :: removelast (c :: tl)).
    simpl. intros [= <-] [= <-]. done.
Qed.

Lemma lookup_removelast {A} (l : list A) i :
  (S i < length l)%nat → removelast l !! i = l !! i.
Proof.
  intros Hi. rewrite removelast_firstn_len. apply lookup_take_lt. lia.
Qed.

Lemma tick_alive_on_board evs s s' :
  Forall on_board (snake s) → tick evs s = Some s' → running s' = true →
  Forall on_board (snake s').
Proof.
  intros Hall (nh & _ & ->)%tick_new_head.
  rewrite running_after_tick, snake_after_tick.
  destruct (collides nh (snake s)) eqn:Hc; [done|]. intros _.
  assert (on_board nh) as Hnh.
  { apply not_true_iff_false in Hc.
    rewrite collides_true, out_of_bounds_true in Hc.
    unfold on_board. lia. }
  assert (Forall on_board (nh :: snake s)) as Hall' by by constructor.
  case_bool_decide; [done|].
  rewrite list.Forall_forall in Hall' |- *.
  intros c Hin%elem_of_removelast. by apply Hall'.
Qed.

Lemma start_on_board now g : Forall on_board (snake (start now g)).
Proof.
  rewrite snake_start. unfold on_board, WIDTH, HEIGHT.
  repeat constructor; simpl; lia.
Qed.

Lemma grid_aligned_step (hd d : cell) :
  grid_aligned hd → d ∈ directions →
  grid_aligned (hd.1 + d.1, hd.2 + d.2).
Proof.
  destruct hd as [x y]. unfold grid_aligned, GRID_SIZE. simpl.
  intros [Hx Hy] Hd%directions_spec.
  destruct Hd as [-> | [-> | [-> | ->]]]; simpl;
    split; Z.div_mod_to_equations; lia.
Qed.

Lemma head_after_tick evs s nh :
  new_head evs s = Some nh → snake (after_tick evs s nh) !! 0%nat = Some nh.
Proof.
  intros (hd & tl & Hs & _)%new_head_Some.
  rewrite snake_after_tick, Hs. by case_bool_decide.
Qed.

(** The head stays on the grid, and so does every cell but (90, 100). *)
Lemma tick_on_grid evs s s' :
  snake_dir s ∈ directions →
  (∀ hd, snake s !! 0%nat = Some hd → grid_aligned hd) →
  Forall on_grid_or_initial (snake s) →
  tick evs s = Some s' →
  (∀ hd, snake s' !! 0%nat = Some hd → grid_aligned hd) ∧
  Forall on_grid_or_initial (snake s').
Proof.
  intros Hd Hhd Hall (nh & Hnh & ->)%tick_new_head.
  assert (grid_aligned nh) as Hal.
  { apply new_head_Some in Hnh as (hd & tl & Hs & ->).
    apply grid_aligned_step; [apply Hhd; by rewrite Hs|].
    by apply handle_events_directions. }
  split.
  - intros hd. rewrite (head_after_tick _ _ _ Hnh). by intros [= <-].
  - assert (Forall on_grid_or_initial (nh :: snake s)) as Hall'.
    { constructor; [by left|done]. }
    rewrite snake_after_tick. case_bool_decide; [done|].
    rewrite list.Forall_forall in Hall' |- *.
    intros c Hin%elem_of_removelast. by apply Hall'.
Qed.

Lemma start_on_grid now g :
  (∀ hd, snake (start now g) !! 0%nat = Some hd → grid_aligned hd) ∧
  Forall on_grid_or_initial (snake (start now g)).
Proof.
  rewrite snake_start. split.
  - intros hd [= <-]. by split.
  - repeat apply Forall_cons_2; [by left|by right|by left|constructor].
Qed.

(** ** The cells of the board *)

Lemma board_cells_length : length board_cells = 600%nat.
Proof. reflexivity. Qed.

Lemma elem_of_board_cells (c : cell) :
  on_board c → grid_aligned c → c ∈ board_cells.
Proof.
  destruct c as [x y].
  unfold on_board, grid_aligned, WIDTH, HEIGHT, GRID_SIZE.
  simpl. intros [Hx Hy] [Hxm Hym].
  unfold board_cells, WIDTH, HEIGHT, GRID_SIZE.
  apply list_elem_of_bind. exists (x `div` 20). split.
  - apply list_elem_of_bind. exists (y `div` 20). split.
    + apply list_elem_of_singleton. f_equal; Z.div_mod_to_equations; lia.
    + apply elem_of_seqZ. change (400 `div` 20) with 20.
      Z.div_mod_to_equations; lia.
  - apply elem_of_seqZ. change (600 `div` 20) with 30.
    Z.div_mod_to_equations; lia.
Qed.

(** ** What holds in every state of a game *)

Lemma reachable_directions s : reachable s → snake_dir s ∈ directions.
Proof.
  induction 1 as [now g|s evs s' _ IH _ Ht].
  - apply start_direction.
  - by eapply tick_direction.
Qed.

Lemma reachable_length_score s :
  reachable s → Z.of_nat (length (snake s)) = score s + 3.
Proof.
  induction 1 as [now g|s evs s' _ IH _ Ht].
  - by rewrite snake_start, score_start.
  - apply tick_new_head in Ht as (nh & _ & ->).
    rewrite snake_after_tick, score_after_tick. case_bool_decide.
    + simpl length. lia.
    + rewrite removelast_cons_length. lia.
Qed.

Lemma reachable_on_grid s :
  reachable s →
  (∀ hd, snake s !! 0%nat = Some hd → grid_aligned hd) ∧
  Forall on_grid_or_initial (snake s).
Proof.
  induction 1 as [now g|s evs s' Hr [IH1 IH2] _ Ht].
  - apply start_on_grid.
  - eapply tick_on_grid; [|done..]. by apply reachable_directions.
Qed.

Lemma reachable_alive s :
  reachable s → running s = true →
  NoDup (snake s) ∧ Forall on_board (snake s).
Proof.
  induction 1 as [now g|s evs s' _ IH Hrun Ht]; intros Halive.
  - split; [apply start_NoDup|apply start_on_board].
  - destruct (IH Hrun) as [Hnd Hon]. split.
    + by eapply tick_alive_NoDup.
    + by eapply tick_alive_on_board.
Qed.

Lemma reachable_head s : reachable s → is_Some (snake s !! 0%nat).
Proof.
  intros Hlen%reachable_length. apply lookup_lt_is_Some. lia.
Qed.

(** * Further properties *)

(** X1.  In every state of a game the snake has three cells more than the
    score, and the score is not negative. *)
Theorem snake_length_is_score_plus_three s :
  reachable s →
  Z.of_nat (length (snake s)) = score s + 3 ∧ 0 <= score s.
Proof.
  intros Hr. pose proof (reachable_length_score s Hr) as Hls.
  pose proof (reachable_length s Hr) as Hlen.
  split; [done|lia].
Qed.

(** X2.  Over any number of iterations the score never goes down, and goes
    up by at most one per iteration. *)
Theorem game_loop_score_bounds frames s s' :
  game_loop frames s = Some s' →
  score s <= score s' <= score s + Z.of_nat (length frames).
Proof.
  revert s. induction frames as [|evs frames IH]; intros s.
  - intros [= <-]. simpl. lia.
  - cbn [game_loop]. destruct (running s); [|intros [= <-]; simpl length; lia].
    destruct (tick evs s) as [s1|] eqn:Ht; [|done]. simpl.
    intros Hloop%IH.
    apply tick_new_head in Ht as (nh & _ & ->).
    rewrite score_after_tick in Hloop.
    simpl length. case_bool_decide; lia.
Qed.

(** X3.  In every state of a game the new head is one grid step away from
    the head, along one axis, whatever the events of the iteration. *)
Theorem head_moves_one_grid_step evs s hd nh :
  reachable s → snake s !! 0%nat = Some hd → new_head evs s = Some nh →
  (nh.2 = hd.2 ∧ Z.abs (nh.1 - hd.1) = GRID_SIZE) ∨
  (nh.1 = hd.1 ∧ Z.abs (nh.2 - hd.2) = GRID_SIZE).
Proof.
  intros Hr Hhd (hd' & tl & Hs & ->)%new_head_Some.
  rewrite Hs in Hhd. injection Hhd as ->.
  pose proof (handle_events_directions evs (running s) (snake_dir s)
                (reachable_directions s Hr)) as Hd.
  apply directions_spec in Hd. unfold GRID_SIZE.
  destruct Hd as [-> | [-> | [-> | ->]]]; simpl; lia.
Qed.

(** X4.  The game goes on after an iteration exactly when it was running,
    no [QUIT] event came, and the new head is on the board and not a cell
    of the snake. *)
Theorem tick_alive_iff evs s nh s' :
  new_head evs s = Some nh → tick evs s = Some s' →
  (running s' = true ↔
   running s = true ∧ (QUIT ∉ evs) ∧ (nh ∉ snake s) ∧ on_board nh).
Proof.
  intros Hnh Ht. rewrite (tick_after_tick _ _ _ Hnh) in Ht.
  injection Ht as <-. rewrite running_after_tick, handle_events_running.
  destruct (collides nh (snake s)) eqn:Hc.
  - apply collides_true in Hc. rewrite out_of_bounds_true in Hc.
    unfold on_board. split; [done|]. intros (_ & _ & Hin & Hon).
    destruct Hc as [?|?]; [done|lia].
  - apply not_true_iff_false in Hc.
    rewrite collides_true, out_of_bounds_true in Hc.
    unfold on_board. case_bool_decide.
    + split; [done|]. by intros (_ & ? & _).
    + split; [|by intros (? & _)]. intros ->.
      repeat split; try done; try lia. intros ?. apply Hc. by left.
Qed.

(** X5.  After at least one iteration, an iteration with at most one event
    never moves the head onto the second cell of the snake: the reversal
    test does what it is there for. *)
Theorem single_key_spares_neck s evs s1 evs1 nh nk :
  reachable s → running s = true → tick evs s = Some s1 →
  (length evs1 <= 1)%nat →
  new_head evs1 s1 = Some nh → snake s1 !! 1%nat = Some nk →
  nh ≠ nk.
Proof.
  intros Hr Hrun Ht Hlen Hnh Hnk.
  assert (snake_dir s1 ∈ directions) as Hd1.
  { eapply tick_direction; [|done]. by apply reachable_directions. }
  apply new_head_Some in Hnh as (hd & tl & Hs & ->).
  assert (hd = (nk.1 + (snake_dir s1).1, nk.2 + (snake_dir s1).2)) as ->.
  { eapply neck_after_tick; [done| |done]. by rewrite Hs. }
  assert ((handle_events evs1 (running s1, snake_dir s1)).2
          ≠ opposite (snake_dir s1)) as Hne.
  { destruct evs1 as [|e [|e' evs1]]; [| |simpl in Hlen; lia].
    - by apply direction_ne_opposite.
    - destruct e as [|k|]; simpl; [by apply direction_ne_opposite| |
        by apply direction_ne_opposite].
      destruct (requested k) as [r|] eqn:Hreq.
      + rewrite (on_keydown_requested k _ r Hreq). case_bool_decide as Hop.
        * by apply direction_ne_opposite.
        * intros ->. apply Hop. by rewrite opposite_involutive.
      + destruct k; try discriminate. rewrite on_keydown_other.
        by apply direction_ne_opposite. }
  intros Heq. apply Hne. unfold opposite.
  destruct (handle_events evs1 (running s1, snake_dir s1)).2 as [dx dy].
  destruct (snake_dir s1) as [x y]. destruct nk as [nx ny]. simpl in *.
  injection Heq as Hx Hy. f_equal; lia.
Qed.

(** X6.  Two keys in one iteration get round the reversal test: a turn
    followed by the reverse of the direction before it leaves the snake
    reversed, the new head is the second cell of the snake, and the game
    ends. *)
Theorem double_key_reversal_ends_game s evs s1 k1 r1 k2 :
  reachable s → running s = true → tick evs s = Some s1 →
  requested k1 = Some r1 →
  r1 ≠ snake_dir s1 → r1 ≠ opposite (snake_dir s1) →
  requested k2 = Some (opposite (snake_dir s1)) →
  ∃ s2, tick [KEYDOWN k1; KEYDOWN k2] s1 = Some s2 ∧
    snake_dir s2 = opposite (snake_dir s1) ∧
    snake s2 !! 0%nat = snake s1 !! 1%nat ∧
    running s2 = false.
Proof.
  intros Hr Hrun Ht Hk1 Hne1 Hne2 Hk2.
  assert (reachable s1) as Hr1 by by eapply reach_tick.
  pose proof (reachable_length s1 Hr1) as Hlen.
  destruct (snake s1) as [|hd [|nk tl]] eqn:Hs; [simpl in Hlen; lia..|].
  assert (hd = (nk.1 + (snake_dir s1).1, nk.2 + (snake_dir s1).2)) as Hhd.
  { eapply neck_after_tick; [done|by rewrite Hs..]. }
  assert ((handle_events [KEYDOWN k1; KEYDOWN k2] (running s1, snake_dir s1)).2
          = opposite (snake_dir s1)) as Hdir.
  { simpl. rewrite (on_keydown_requested k1 _ r1 Hk1).
    rewrite bool_decide_false by (by intros ?%opposite_swap).
    rewrite (on_keydown_requested k2 _ _ Hk2).
    rewrite bool_decide_false; [done|]. by rewrite opposite_involutive. }
  assert (new_head [KEYDOWN k1; KEYDOWN k2] s1 = Some nk) as Hnh.
  { unfold new_head. rewrite Hdir, Hs, Hhd. simpl.
    destruct nk as [nx ny]. destruct (snake_dir s1) as [x y]. simpl.
    do 2 f_equal; lia. }
  exists (after_tick [KEYDOWN k1; KEYDOWN k2] s1 nk).
  split; [by apply tick_after_tick|].
  rewrite snake_dir_after_tick, (head_after_tick _ _ _ Hnh), running_after_tick.
  split; [done|]. split; [done|].
  assert (collides nk (snake s1) = true) as ->; [|done].
  apply collides_true. left. rewrite Hs. by do 2 constructor.
Qed.

(** X7.  While the game runs, the square drawn for every cell of the snake,
    of side [GRID_SIZE] from the cell, lies inside the window. *)
Theorem alive_segments_inside_window s (c : cell) :
  reachable s → running s = true → c ∈ snake s →
  (0 <= c.1 ∧ c.1 + GRID_SIZE <= WIDTH) ∧
  (0 <= c.2 ∧ c.2 + GRID_SIZE <= HEIGHT).
Proof.
  intros Hr Hrun Hin.
  destruct (reachable_alive s Hr Hrun) as [_ Hon].
  destruct (reachable_on_grid s Hr) as [_ Hgrid].
  rewrite list.Forall_forall in Hon, Hgrid.
  specialize (Hon c Hin). specialize (Hgrid c Hin).
  unfold on_board, on_grid_or_initial, grid_aligned in *.
  unfold WIDTH, HEIGHT, GRID_SIZE in *.
  destruct Hgrid as [[Hx Hy]| ->]; [|simpl; lia].
  Z.div_mod_to_equations. lia.
Qed.

(** X8.  While the game runs, the head of the snake is one of the 600 cells
    of the board on which food can be placed. *)
Theorem alive_head_on_board_cells s :
  reachable s → running s = true →
  ∃ hd, snake s !! 0%nat = Some hd ∧ hd ∈ board_cells.
Proof.
  intros Hr Hrun.
  destruct (reachable_head s Hr) as [hd Hhd]. exists hd. split; [done|].
  destruct (reachable_alive s Hr Hrun) as [_ Hon].
  destruct (reachable_on_grid s Hr) as [Hal _].
  apply elem_of_board_cells; [|by apply Hal].
  rewrite list.Forall_forall in Hon. apply Hon.
  by eapply list_elem_of_lookup_2.
Qed.

(** X9.  While the game runs, the snake has at most 601 cells (the cells of
    the board and the off-grid cell of the initial snake), so the score is
    at most 598. *)
Theorem alive_score_bound s :
  reachable s → running s = true →
  (length (snake s) <= 601)%nat ∧ score s <= 598.
Proof.
  intros Hr Hrun.
  destruct (reachable_alive s Hr Hrun) as [Hnd Hon].
  destruct (reachable_on_grid s Hr) as [_ Hgrid].
  rewrite list.Forall_forall in Hon, Hgrid.
  assert (snake s ⊆+ (90, 100) :: board_cells) as Hsub.
  { apply NoDup_submseteq; [done|]. intros c Hin.
    destruct (Hgrid c Hin) as [Hal| ->]; [|by left].
    right. apply elem_of_board_cells; [by apply Hon|done]. }
  apply submseteq_length in Hsub.
  change (length ((90, 100) :: board_cells)) with 601%nat in Hsub.
  pose proof (reachable_length_score s Hr). lia.
Qed.

(** X10.  Whatever the generator draws within the range asked for, in every
    state of a game the food is one of the 600 cells of the board. *)
Theorem reachable_food_on_board_cells s :
  reachable s → food s ∈ board_cells.
Proof.
  induction 1 as [now g|s evs s' _ IH _ Ht].
  - rewrite food_start.
    destruct (random_food_on_grid randint_range g).
    by apply elem_of_board_cells.
  - apply tick_new_head in Ht as (nh & _ & ->).
    pose proof (food_after_tick evs s nh) as Hf.
    case_bool_decide.
    + apply (f_equal fst) in Hf. simpl in Hf. rewrite Hf.
      destruct (random_food_on_grid randint_range (gen s)).
      by apply elem_of_board_cells.
    + by injection Hf as -> _.
Qed.

(** X11.  In an iteration every cell of the snake after the head takes the
    place of the cell before it. *)
Theorem tick_shifts_body evs s s' (i : nat) :
  tick evs s = Some s' → (S i < length (snake s'))%nat →
  snake s' !! S i = snake s !! i.
Proof.
  intros (nh & _ & ->)%tick_new_head. rewrite snake_after_tick.
  case_bool_decide; [done|].
  rewrite removelast_cons_length. intros Hi.
  rewrite lookup_removelast by (simpl; lia). done.
Qed.

Lemma game_loop_score_mono frames s s' :
  game_loop frames s = Some s' → score s <= score s'.
Proof.
  revert s. induction frames as [|evs frames IH]; intros s.
  - by intros [= <-].
  - cbn [game_loop]. destruct (running s); [|by intros [= <-]].
    destruct (tick evs s) as [s1|] eqn:Ht; [|done]. simpl.
    intros Hloop%IH.
    apply tick_new_head in Ht as (nh & _ & ->).
    rewrite score_after_tick in Hloop. case_bool_decide; lia.
Qed.

(** X12.  Over any number of iterations, if the score has not changed then
    neither has the food, and the generator has not been used. *)
Theorem food_moves_only_when_eaten frames s s' :
  game_loop frames s = Some s' → score s' = score s →
  food s' = food s ∧ gen s' = gen s.
Proof.
  revert s. induction frames as [|evs frames IH]; intros s.
  - by intros [= <-].
  - cbn [game_loop]. destruct (running s); [|by intros [= <-]].
    destruct (tick evs s) as [s1|] eqn:Ht; [|done]. simpl.
    intros Hloop Hscore.
    pose proof (game_loop_score_mono _ _ _ Hloop) as Hmono.
    apply tick_new_head in Ht as (nh & _ & ->).
    pose proof (food_after_tick evs s nh) as Hf.
    pose proof (score_after_tick evs s nh) as Hsc.
    destruct (bool_decide (nh = food s)); [lia|].
    injection Hf as Hfood Hgen.
    destruct (IH _ Hloop) as [-> ->]; [lia|done].
Qed.

(** X13.  The start time that the elapsed time is counted from is the one
    [init_game] took, for the whole game. *)
Theorem start_time_kept frames now g s :
  game_loop frames (start now g) = Some s → start_time s = now.
Proof.
  assert (∀ s0, game_loop frames s0 = Some s → start_time s = start_time s0)
    as Hkept.
  { induction frames as [|evs frames IH]; intros s0.
    - by intros [= <-].
    - cbn [game_loop]. destruct (running s0); [|by intros [= <-]].
      destruct (tick evs s0) as [s1|] eqn:Ht; [|done]. simpl.
      intros ->%IH. apply tick_new_head in Ht as (nh & _ & ->).
      apply start_time_after_tick. }
  intros ->%Hkept. unfold start, init_game. by destruct (random_food g).
Qed.


(** X15.  Once the loop has ended with [running] false, events that come
    later change nothing. *)
Theorem game_over_is_final frames more s s' :
  game_loop frames s = Some s' → running s' = false →
  game_loop (frames ++ more) s = Some s'.
Proof.
  assert (∀ s0, running s0 = false → game_loop more s0 = Some s0) as Hstop.
  { intros s0 Hrun. destruct more; [done|]. cbn [game_loop]. by rewrite Hrun. }
  revert s. induction frames as [|evs frames IH]; intros s.
  - intros [= <-]. apply Hstop.
  - cbn [app game_loop]. destruct (running s) eqn:Hrun.
    + destruct (tick evs s) as [s1|]; [|done]. simpl. apply IH.
    + intros [= <-] _. done.
Qed.

(** X16.  From a state of a game the loop never raises: [snake[0]] and
    [snake.pop()] always find a cell. *)
Theorem game_loop_never_raises frames s :
  reachable s → is_Some (game_loop frames s).
Proof.
  revert s. induction frames as [|evs frames IH]; intros s Hr; [done|].
  cbn [game_loop]. destruct (running s) eqn:Hrun; [|done].
  destruct (reachable_tick_is_Some evs s Hr) as [s1 Ht].
  rewrite Ht. simpl. apply IH. by eapply reach_tick.
Qed.

(** X17.  The game-over panel is centred in the window to within one unit,
    and lies inside the window when it is no larger than the window. *)
Theorem game_over_panel_centred (game_over_text score_text : Z * Z) :
  let '(x, y) := game_over_position game_over_text score_text in
  let '(w, h) := panel_size game_over_text score_text in
  0 <= x - (WIDTH - (x + w)) <= 1 ∧
  0 <= y - (HEIGHT - (y + h)) <= 1 ∧
  (0 <= w <= WIDTH → 0 <= x ∧ x + w <= WIDTH) ∧
  (0 <= h <= HEIGHT → 0 <= y ∧ y + h <= HEIGHT).
Proof.
  unfold game_over_position.
  destruct (panel_size game_over_text score_text) as [w h]. simpl.
  unfold WIDTH, HEIGHT. change (600 `div` 2) with 300.
  change (400 `div` 2) with 200.
  repeat split; intros; Z.div_mod_to_equations; lia.
Qed.

End LoopProperties.

(** * The further properties on the scripted plays *)

Lemma start_reachable (draws : list Z) : reachable (start () draws).
Proof. apply reach_start. Qed.

Lemma coiled_reachable : reachable coiled.
Proof.
  apply (game_loop_reachable coil (start () [6; 5; 9; 9; 7; 8]));
    [apply reach_start|reflexivity].
Qed.

Lemma snake_length_is_score_plus_three_witness :
  Z.of_nat (length (snake coiled)) = score coiled + 3 ∧ 0 <= score coiled.
Proof.
  exact (snake_length_is_score_plus_three coiled coiled_reachable).
Defined.

Lemma game_loop_score_bounds_witness :
  score (start () [6; 5; 9; 9; 7; 8]) <= score coiled
  <= score (start () [6; 5; 9; 9; 7; 8]) + Z.of_nat (length coil).
Proof.
  exact (game_loop_score_bounds coil (start () [6; 5; 9; 9; 7; 8]) coiled
           eq_refl).
Defined.

Lemma head_moves_one_grid_step_witness :
  ((100, 100).2 = (100, 120).2 ∧ Z.abs ((100, 100).1 - (100, 120).1) = GRID_SIZE) ∨
  ((100, 100).1 = (100, 120).1 ∧ Z.abs ((100, 100).2 - (100, 120).2) = GRID_SIZE).
Proof.
  exact (head_moves_one_grid_step [KEYDOWN K_UP] coiled (100, 120) (100, 100)
           coiled_reachable eq_refl eq_refl).
Defined.

Lemma tick_alive_iff_witness :
  running bitten = true ↔
  running coiled = true ∧ (QUIT ∉ [KEYDOWN K_UP]) ∧
  ((100, 100) ∉ snake coiled) ∧ on_board (100, 100).
Proof.
  exact (tick_alive_iff [KEYDOWN K_UP] coiled (100, 100) bitten
           eq_refl eq_refl).
Defined.

Lemma single_key_spares_neck_witness : (140, 100) ≠ (100, 100).
Proof.
  assert (length [KEYDOWN K_LEFT] <= 1)%nat as Hlen by (simpl; lia).
  exact (single_key_spares_neck (start () [9; 9]) [] moved_once
           [KEYDOWN K_LEFT] (140, 100) (100, 100)
           (start_reachable [9; 9]) eq_refl eq_refl Hlen eq_refl eq_refl).
Defined.

Lemma double_key_reversal_ends_game_witness :
  ∃ s2, tick [KEYDOWN K_UP; KEYDOWN K_LEFT] moved_once = Some s2 ∧
    snake_dir s2 = (-20, 0) ∧
    snake s2 !! 0%nat = Some (100, 100) ∧
    running s2 = false.
Proof.
  assert ((0, -20) ≠ snake_dir moved_once) as H1 by discriminate.
  assert ((0, -20) ≠ opposite (snake_dir moved_once)) as H2 by discriminate.
  exact (double_key_reversal_ends_game (start () [9; 9]) [] moved_once
           K_UP (0, -20) K_LEFT
           (start_reachable [9; 9]) eq_refl eq_refl eq_refl H1 H2 eq_refl).
Defined.

Lemma alive_segments_inside_window_witness :
  (0 <= 120 ∧ 120 + GRID_SIZE <= WIDTH) ∧ (0 <= 120 ∧ 120 + GRID_SIZE <= HEIGHT).
Proof.
  assert ((120, 120) ∈ snake coiled) as Hin by repeat constructor.
  exact (alive_segments_inside_window coiled (120, 120)
           coiled_reachable eq_refl Hin).
Defined.

Lemma alive_head_on_board_cells_witness :
  ∃ hd, snake coiled !! 0%nat = Some hd ∧ hd ∈ board_cells.
Proof.
  exact (alive_head_on_board_cells coiled coiled_reachable eq_refl).
Defined.

Lemma alive_score_bound_witness :
  (length (snake coiled) <= 601)%nat ∧ score coiled <= 598.
Proof.
  exact (alive_score_bound coiled coiled_reachable eq_refl).
Defined.

Lemma reachable_food_on_board_cells_witness : (180, 180) ∈ board_cells.
Proof.
  exact (reachable_food_on_board_cells stub_randint_range coiled
           coiled_reachable).
Defined.

Lemma tick_shifts_body_witness :
  snake moved_once !! 1%nat = Some (100, 100) ∧
  snake moved_once !! 2%nat = Some (90, 100).
Proof.
  split.
  - assert (1 < length (snake moved_once))%nat as Hi by (simpl; lia).
    exact (tick_shifts_body [] (start () [9; 9]) moved_once 0 eq_refl Hi).
  - assert (2 < length (snake moved_once))%nat as Hi by (simpl; lia).
    exact (tick_shifts_body [] (start () [9; 9]) moved_once 1 eq_refl Hi).
Defined.

Lemma food_moves_only_when_eaten_witness :
  food moved_once = (180, 180) ∧ gen moved_once = [].
Proof.
  exact (food_moves_only_when_eaten [ [] ] (start () [9; 9]) moved_once
           eq_refl eq_refl).
Defined.

Lemma start_time_kept_witness : start_time coiled = ().
Proof.
  exact (start_time_kept coil () [6; 5; 9; 9; 7; 8] coiled eq_refl).
Defined.

Lemma game_over_is_final_witness :
  game_loop ([ [KEYDOWN K_UP] ] ++ [ [KEYDOWN K_RIGHT]; [] ]) coiled
  = Some bitten.
Proof.
  exact (game_over_is_final [ [KEYDOWN K_UP] ] [ [KEYDOWN K_RIGHT]; [] ]
           coiled bitten eq_refl eq_refl).
Defined.

Lemma game_loop_never_raises_witness :
  is_Some (game_loop [ [KEYDOWN K_UP]; [] ] coiled).
Proof.
  exact (game_loop_never_raises [ [KEYDOWN K_UP]; [] ] coiled coiled_reachable).
Defined.
